(** * Imaging-transcriptomics: the input layer and the permutation p-values

    A shallow embedding of [imaging_transcriptomics/inputs.py]
    ([get_components], [extract_average], [load_gene_expression]) together
    with the validators and the permutation finalisation they rely on.

    Numbers.  A finite float64 is a rational and the comparison of two
    finite floats is the comparison of these rationals, so values are
    modelled in [Q].  What float64 does differently is to round the result
    of an addition: the cumulative sum is therefore parametric in the
    addition [fadd], and every result about [get_components] holds for the
    rounded addition as well as for the exact one.  Values that are not
    numbers (the mean of an empty selection, a division by a zero
    deviation) are made explicit by the type [npfloat].  The z-score needs
    a square root and is developed over the real numbers. *)

From Stdlib Require Import QArith List Lia Arith Bool Reals Lra.
From stdpp Require Import base list.
Import ListNotations.

(** ** Exceptions and results *)

(** [IndexError] is Python's; the other names are the error kinds of the
    analysis. *)
Inductive exn : Type :=
| IndexError
| InvalidRangeError
| InsufficientVarianceError
| ShapeMismatchError
| InvalidParameterError
| ResampleFitError.

(** The outcome of a call: a value, a raised exception, or a loop that
    was cut after the steps it was allowed. *)
Inductive result (A : Type) : Type :=
| Return (a : A)
| Raise (e : exn)
| OutOfFuel.

Arguments Return {A} a.
Arguments Raise {A} e.
Arguments OutOfFuel {A}.

Definition bind {A B : Type} (r : result A) (k : A -> result B) : result B :=
  match r with
  | Return a => k a
  | Raise e => Raise e
  | OutOfFuel => OutOfFuel
  end.

(** A float that may be [nan]. *)
Inductive npfloat (A : Type) : Type :=
| Finite (x : A)
| NaN.

Arguments Finite {A} x.
Arguments NaN {A}.

(** ** Comparisons of rationals as the code evaluates them *)

Definition Qlt_bool (x y : Q) : bool := negb (Qle_bool y x).

(** ** The validators of [errors.py] *)

Module Errors.

Definition var_in_range (target_var : Q) : bool :=
  Qlt_bool 0 target_var && Qle_bool target_var 1.

(** Modelled from the spec: [errors.py], which defines the decorator
    [check_var_in_range], is not among the sources.  The wrapped function
    is called only when [target_variance] lies in (0,1]; otherwise the
    call fails with [InvalidRangeError] before the function is entered. *)
Definition check_var_in_range {A B : Type} (function : Q -> A -> result B)
           (target_var : Q) (args : A) : result B :=
  if var_in_range target_var
  then function target_var args
  else Raise InvalidRangeError.

(** Modelled from the spec: [errors.py], which defines the decorator
    [check_correct_shape], is not among the sources.  The wrapped function
    is called only when the voxel grid of the scan has the shape of the
    atlas; otherwise the call fails with [ShapeMismatchError] before the
    function is entered. *)
Definition check_correct_shape {V B : Type} (shape_of : V -> nat * nat * nat)
           (atlas_shape : nat * nat * nat) (function : V -> result B)
           (image : V) : result B :=
  if decide (shape_of image = atlas_shape)
  then function image
  else Raise ShapeMismatchError.

End Errors.

(** ** [get_components] *)

Module Components.
Section Selector.

(** float64 addition on finite values; nothing is assumed of it. *)
Variable fadd : Q -> Q -> Q.

(** [np.cumsum]: the first entry is copied, every later one is added to
    the running sum. *)
Fixpoint cumsum_from (acc : Q) (l : list Q) : list Q :=
  match l with
  | [] => []
  | x :: xs => let acc' := fadd acc x in acc' :: cumsum_from acc' xs
  end.

Definition cumsum (l : list Q) : list Q :=
  match l with
  | [] => []
  | x :: xs => x :: cumsum_from x xs
  end.

(** The cumulative sum over the first [d] entries, added up in order. *)
Definition partial_sum (l : list Q) (d : nat) : Q :=
  match take d l with
  | [] => 0%Q
  | x :: xs => fold_left fadd xs x
  end.

(** [while cumulative_var[dim-1] < target_variance: dim += 1].  The
    index [dim - 1] is never negative; a read at or past the length
    raises [IndexError]. *)
Fixpoint scan (fuel : nat) (cumulative_var : list Q) (target_variance : Q)
         (dim : nat) : result nat :=
  match fuel with
  | O => OutOfFuel
  | S fuel' =>
      match cumulative_var !! (dim - 1)%nat with
      | None => Raise IndexError
      | Some c =>
          if Qlt_bool c target_variance
          then scan fuel' cumulative_var target_variance (S dim)
          else Return dim
      end
  end.

(** The body of [get_components], before the decorator. *)
Definition get_components_body (target_variance : Q) (explained_var : list Q)
  : result nat :=
  let dim := 1%nat in
  let cumulative_var := cumsum explained_var in
  scan (S (length cumulative_var)) cumulative_var target_variance dim.

(** Some cumulative sum is not below the target. *)
Definition reachable (target_variance : Q) (explained_var : list Q) : bool :=
  existsb (fun c => Qle_bool target_variance c) (cumsum explained_var).

(** [@check_var_in_range def get_components(target_variance, explained_var)] *)
Definition get_components : Q -> list Q -> result nat :=
  Errors.check_var_in_range get_components_body.

End Selector.
End Components.

(** ** [extract_average] *)

Module Regions.

(** A voxel grid as [get_fdata] returns it: the three extents and the
    intensities in C order (last axis fastest). *)
Record volume : Type := mkVolume {
  shape : nat * nat * nat;
  voxels : list Q
}.

Definition size (s : nat * nat * nat) : nat :=
  let '(a, b, c) := s in a * b * c.

(** A volume holds one intensity per voxel of its grid. *)
Definition well_formed (v : volume) : Prop :=
  length (voxels v) = size (shape v).

(** Position of voxel [(x, y, z)] in C order, and back. *)
Definition ravel (s : nat * nat * nat) (i : nat * nat * nat) : nat :=
  let '(_, b, c) := s in let '(x, y, z) := i in (x * b + y) * c + z.

Definition unravel (s : nat * nat * nat) (k : nat) : nat * nat * nat :=
  let '(_, b, c) := s in (k / (b * c), (k / c) mod b, k mod c).

Definition in_bounds (s : nat * nat * nat) (i : nat * nat * nat) : bool :=
  let '(a, b, c) := s in let '(x, y, z) := i in
  (x <? a) && (y <? b) && (z <? c).

(** [atlas_data == i]: a float label against the integer [i]. *)
Definition label_is (i : nat) (v : Q) : bool :=
  Qeq_bool v (inject_Z (Z.of_nat i)).

(** Positions, in C order, of the entries a predicate holds for. *)
Definition positions (p : Q -> bool) (l : list Q) : list nat :=
  List.filter (fun k => match l !! k with Some v => p v | None => false end)
              (seq 0 (length l)).

(** [np.where(atlas_data == i)]: the voxels labelled [i], in C order. *)
Definition np_where_eq (atlas_data : volume) (i : nat)
  : list (nat * nat * nat) :=
  map (unravel (shape atlas_data)) (positions (label_is i) (voxels atlas_data)).

(** [imaging_matrix[idx]]: the intensities at the listed voxels; a
    coordinate at or past its extent raises [IndexError]. *)
Fixpoint getitem (imaging_matrix : volume) (idx : list (nat * nat * nat))
  : result (list Q) :=
  match idx with
  | [] => Return []
  | i :: rest =>
      if in_bounds (shape imaging_matrix) i then
        match voxels imaging_matrix !! ravel (shape imaging_matrix) i with
        | Some v =>
            bind (getitem imaging_matrix rest) (fun vs => Return (v :: vs))
        | None => Raise IndexError
        end
      else Raise IndexError
  end.

Definition Qsum (l : list Q) : Q := fold_right Qplus 0%Q l.

(** [np.mean]: [nan] for an empty selection.  The sum and the quotient
    are taken exactly, where numpy rounds them; the results below use
    which values are averaged and whether there are any, not the
    arithmetic of the average. *)
Definition np_mean (l : list Q) : npfloat Q :=
  match l with
  | [] => NaN
  | _ :: _ => Finite (Qsum l / inject_Z (Z.of_nat (length l)))%Q
  end.

(** [data[k] = v] *)
Definition setitem {A : Type} (data : list A) (k : nat) (v : A)
  : result (list A) :=
  if k <? length data then Return (<[k := v]> data) else Raise IndexError.

Definition n_regions : nat := 41.

Section Extract.

(** The atlas read from
    [data/atlas-desikankilliany_1mm_MNI152.nii.gz]. *)
Variable atlas_data : volume.

(** [for i in range(1, n_regions + 1):
       data[i - 1] = np.mean(imaging_matrix[np.where(atlas_data == i)])] *)
Fixpoint region_loop (imaging_matrix : volume) (range : list nat)
         (data : list (npfloat Q)) : result (list (npfloat Q)) :=
  match range with
  | [] => Return data
  | i :: range' =>
      bind (getitem imaging_matrix (np_where_eq atlas_data i)) (fun sel =>
      bind (setitem data (i - 1) (np_mean sel)) (fun data' =>
      region_loop imaging_matrix range' data'))
  end.

(** The body of [extract_average], before the decorator. *)
Definition extract_average_body (imaging_matrix : volume)
  : result (list (npfloat Q)) :=
  let data := replicate n_regions (Finite 0%Q) in
  region_loop imaging_matrix (seq 1 n_regions) data.

(** [@check_correct_shape def extract_average(imaging_matrix)] *)
Definition extract_average : volume -> result (list (npfloat Q)) :=
  Errors.check_correct_shape shape (shape atlas_data) extract_average_body.

(** The intensities of the scan at the voxels the atlas labels [i],
    read position by position. *)
Definition region_values (imaging_matrix : volume) (i : nat) : list Q :=
  omap (fun k => voxels imaging_matrix !! k)
       (positions (label_is i) (voxels atlas_data)).

End Extract.
End Regions.

(** ** [load_gene_expression] *)

Module Expression.

(** A table is a list of rows.  The two leading columns of the file are
    dropped before any arithmetic, so a row is a list of numbers. *)
Definition table (A : Type) : Type := list (list A).

(** [expression_data.iloc[0:41, 2:]]: slices are clipped to the rows and
    columns there are. *)
Definition iloc {A : Type} (expression_data : table A) : table A :=
  map (drop 2) (take 41 expression_data).

Definition ncols {A : Type} (m : table A) : nat :=
  match m with
  | [] => 0
  | row :: _ => length row
  end.

Definition rectangular {A : Type} (m : table A) : Prop :=
  Forall (fun row => length row = ncols m) m.

Definition column (j : nat) (m : table R) : list R :=
  map (fun row => List.nth j row 0%R) m.

Definition Rsum (l : list R) : R := fold_right Rplus 0%R l.

(** [a.mean(axis=0)] for one column: 0/0 is [nan]. *)
Definition mean (l : list R) : npfloat R :=
  match l with
  | [] => NaN
  | _ :: _ => Finite (Rsum l / INR (length l))%R
  end.

(** [a.std(axis=0, ddof=1)] for one column: the squared deviations are
    divided by [n - 1], and 0/0 is [nan]. *)
Definition std (l : list R) : npfloat R :=
  match mean l with
  | NaN => NaN
  | Finite mn =>
      if (length l - 1 =? 0)%nat then NaN
      else Finite (sqrt (Rsum (map (fun x => (x - mn) * (x - mn)) l)
                         / INR (length l - 1)))%R
  end.

(** [(a - mn) / std] for one entry.  A zero deviation comes with zero
    numerators, so the quotient is 0/0. *)
Definition standardize (mn sd : npfloat R) (x : R) : npfloat R :=
  match mn, sd with
  | Finite m, Finite s =>
      if Req_dec_T s 0 then NaN else Finite ((x - m) / s)%R
  | _, _ => NaN
  end.

(** [scipy.stats.zscore(a, ddof=1)], along axis 0. *)
Definition zscore (a : table R) : table (npfloat R) :=
  map (fun row =>
         imap (fun j x => standardize (mean (column j a)) (std (column j a)) x)
              row) a.

(** [load_gene_expression()], as a function of the table read from
    [data/gene_expression_data.csv]. *)
Definition load_gene_expression (expression_data : table R)
  : table (npfloat R) :=
  let my_data_x := iloc expression_data in
  zscore my_data_x.

(** Gene column [j] of the file (column [j + 2]) over the rows that are
    read. *)
Definition gene_column (j : nat) (expression_data : table R) : list R :=
  take 41 (column (j + 2) expression_data).

(** Column [j] of a table of results. *)
Definition out_column (j : nat) (m : table (npfloat R)) : list (npfloat R) :=
  map (fun row => List.nth j row NaN) m.

End Expression.

(** ** The permutation engine *)

Module Permutations.

Definition matrix : Type := list (list Q).

Record PermutationResult : Type := mkPermutationResult {
  null_distribution : list (list Q);
  p_values : list Q
}.

(** Rows of [Y] in the order of the drawn indices. *)
Definition permute_rows (Y : matrix) (perm : list nat) : matrix :=
  map (fun i => List.nth i Y []) perm.

(** Number of null values that are [>=] the true value. *)
Definition count_null_ge_true (true_ev : Q) (null : list Q) : nat :=
  length (List.filter (fun v => Qle_bool true_ev v) null).

(** Modelled from the spec: [permutations.py] is not among the sources.
    [p = (count_null_ge_true + 1) / (n_perm + 1)], [n_perm] being the
    number of null values. *)
Definition p_value (true_ev : Q) (null : list Q) : Q :=
  (inject_Z (Z.of_nat (count_null_ge_true true_ev null + 1))
   / inject_Z (Z.of_nat (length null + 1)))%Q.

Section Engine.

(** The PLS fit is a library call: the explained variance per
    component, or nothing when the fit fails. *)
Variable pls_fit : matrix -> matrix -> nat -> option (list Q).

(** The random generator: a state, its seeding, and the draw of a
    permutation of [0..R-1]. *)
Variable rng : Type.
Variable seed : option nat -> rng.
Variable draw_permutation : rng -> nat -> list nat * rng.

(** Number of fresh draws allowed after a failed fit. *)
Variable retry_budget : nat.

(** Modelled from the spec: [permutations.py] is not among the sources.
    One iteration: permute the rows of [Y] only, fit, and on failure
    draw again until the budget is spent. *)
Fixpoint null_fit (attempts : nat) (X Y : matrix) (d : nat) (g : rng)
  : result (list Q * rng) :=
  match attempts with
  | O => Raise ResampleFitError
  | S attempts' =>
      let '(perm, g') := draw_permutation g (length Y) in
      match pls_fit X (permute_rows Y perm) d with
      | Some ev => Return (ev, g')
      | None => null_fit attempts' X Y d g'
      end
  end.

(** Modelled from the spec: [permutations.py] is not among the sources.
    [n_perm] iterations, each recording the explained variance of its
    null fit. *)
Fixpoint null_fits (n_perm : nat) (X Y : matrix) (d : nat) (g : rng)
  : result (list (list Q)) :=
  match n_perm with
  | O => Return []
  | S n =>
      bind (null_fit (S retry_budget) X Y d g) (fun '(ev, g') =>
      bind (null_fits n X Y d g') (fun evs => Return (ev :: evs)))
  end.

(** Modelled from the spec: [permutations.py] is not among the sources.
    [permutation_test_pls(X, Y, d, n_perm, rng_seed)]: the count is
    validated first, the baseline is fitted once, the null fits are
    accumulated and the p-values are computed at the end.  A failing
    baseline fit, of which the spec says nothing, is reported as
    [ResampleFitError]. *)
Definition permutation_test_pls (X Y : matrix) (d n_perm : nat)
           (rng_seed : option nat) : result PermutationResult :=
  if (n_perm <? 1)%nat then Raise InvalidParameterError
  else
    match pls_fit X Y d with
    | None => Raise ResampleFitError
    | Some true_ev =>
        bind (null_fits n_perm X Y d (seed rng_seed)) (fun evs =>
        let nulls :=
          map (fun k => map (fun ev => List.nth k ev 0%Q) evs) (seq 0 d) in
        Return {| null_distribution := nulls;
                  p_values :=
                    imap (fun k null => p_value (List.nth k true_ev 0%Q) null)
                         nulls |})
    end.

End Engine.
End Permutations.

(** ** Concrete inputs for the examples *)

Definition ev3 : list Q := [(1 # 2); (1 # 4); (1 # 4)]%Q.

Definition atlas4 : Regions.volume :=
  Regions.mkVolume (1, 2, 2)%nat [1; 1; 2; 0]%Q.

Definition scan4 : Regions.volume :=
  Regions.mkVolume (1, 2, 2)%nat [10; 20; 30; 40]%Q.

Definition scan6 : Regions.volume :=
  Regions.mkVolume (1, 2, 3)%nat [10; 20; 30; 40; 50; 60]%Q.

Definition scan4b : Regions.volume :=
  Regions.mkVolume (1, 2, 2)%nat [10; 20; 30; 99]%Q.

Definition scan2 : Regions.volume :=
  Regions.mkVolume (1, 1, 2)%nat [10; 20]%Q.


Definition constant_table : Expression.table R :=
  replicate 41 [0; 0; 1]%R.

Definition table_normalised : Expression.table R :=
  [[0; 0; -1]; [0; 0; 0]; [0; 0; 1]]%R.

Definition one_row_table : Expression.table R := [[0; 0; 7]]%R.

Definition table3 : Expression.table R :=
  [[0; 0; 0]; [0; 0; 1]; [0; 0; 2]]%R.

(** A stand-in for the fit: the explained variance is read off the first
    row of [Y]. *)
Definition toy_fit (X Y : Permutations.matrix) (d : nat) : option (list Q) :=
  match Y with
  | [] => None
  | row :: _ => Some (take d row)
  end.

(** A stand-in for the generator: the identity, then the reversal, in
    turn. *)
Definition toy_draw (g : nat) (R : nat) : list nat * nat :=
  (if Nat.even g then seq 0 R else rev (seq 0 R), S g).

Definition toy_seed (rng_seed : option nat) : nat := default 0%nat rng_seed.

Definition toy_X : Permutations.matrix := [[1]; [2]]%Q.

Definition toy_Y : Permutations.matrix := [[3 # 4]; [1 # 4]]%Q.

Definition toy_result : Permutations.PermutationResult :=
  {| Permutations.null_distribution := [[3 # 4; 1 # 4]]%Q;
     Permutations.p_values := [2 # 3]%Q |}.

(** * Properties *)

(** ** Comparisons *)

Lemma Qlt_bool_iff (x y : Q) : Qlt_bool x y = true <-> (x < y)%Q.
Proof.
  unfold Qlt_bool. rewrite negb_true_iff.
  split; intros H.
  - apply Qnot_le_lt. intros Hle. apply Qle_bool_iff in Hle. congruence.
  - destruct (Qle_bool y x) eqn:E; [|reflexivity].
    apply Qle_bool_iff in E. exfalso. exact (Qlt_not_le _ _ H E).
Qed.

Lemma Qlt_bool_false (x y : Q) : Qlt_bool x y = false <-> (y <= x)%Q.
Proof.
  unfold Qlt_bool. rewrite negb_false_iff. apply Qle_bool_iff.
Qed.


(** ** The component-count selector *)

Section SelectorFacts.

Variable fadd : Q -> Q -> Q.

Local Abbreviation cumsum := (Components.cumsum fadd).
Local Abbreviation cumsum_from := (Components.cumsum_from fadd).
Local Abbreviation partial_sum := (Components.partial_sum fadd).
Local Abbreviation scan := Components.scan.
Local Abbreviation reachable := (Components.reachable fadd).
Local Abbreviation get_components_body := (Components.get_components_body fadd).
Local Abbreviation get_components := (Components.get_components fadd).

Lemma length_cumsum_from (l : list Q) (acc : Q) :
  length (cumsum_from acc l) = length l.
Proof.
  revert acc. induction l as [|x xs IH]; intros acc; simpl; [reflexivity|].
  now rewrite IH.
Qed.

Lemma length_cumsum (l : list Q) : length (cumsum l) = length l.
Proof.
  destruct l as [|x xs]; simpl; [reflexivity|].
  now rewrite length_cumsum_from.
Qed.

Lemma lookup_cumsum_from (l : list Q) (acc : Q) (d : nat) :
  (d < length l)%nat ->
  cumsum_from acc l !! d = Some (fold_left fadd (take (S d) l) acc).
Proof.
  revert acc d. induction l as [|x xs IH]; intros acc d Hd; simpl in Hd.
  - lia.
  - destruct d as [|d]; simpl.
    + reflexivity.
    + rewrite IH by lia. reflexivity.
Qed.

(** Entry [d] of [np.cumsum] is the sum over the first [d + 1] entries. *)
Lemma lookup_cumsum (l : list Q) (d : nat) :
  (d < length l)%nat -> cumsum l !! d = Some (partial_sum l (S d)).
Proof.
  destruct l as [|x xs]; simpl; intros Hd; [lia|].
  unfold Components.partial_sum. simpl.
  destruct d as [|d]; simpl.
  - reflexivity.
  - rewrite lookup_cumsum_from by lia. reflexivity.
Qed.

(** What a returning scan has seen: the entry it stopped at is not below
    the target, every entry it passed is. *)
Lemma scan_return (cum : list Q) (t : Q) (fuel dim d : nat) :
  scan fuel cum t dim = Return d ->
  (dim <= d)%nat /\
  (exists c, cum !! (d - 1)%nat = Some c /\ (t <= c)%Q) /\
  (forall j, (dim <= j < d)%nat ->
             exists c, cum !! (j - 1)%nat = Some c /\ (c < t)%Q).
Proof.
  revert dim. induction fuel as [|fuel IH]; intros dim H; simpl in H.
  - discriminate.
  - destruct (cum !! (dim - 1)%nat) as [c|] eqn:Hc; [|discriminate].
    destruct (Qlt_bool c t) eqn:Hlt.
    + apply IH in H. destruct H as (Hle & Hd & Hbelow).
      split; [lia|]. split; [exact Hd|].
      intros j Hj. destruct (decide (j = dim)) as [->|Hne].
      * exists c. split; [exact Hc|]. now apply Qlt_bool_iff.
      * apply Hbelow. lia.
    + inversion H; subst d. split; [lia|]. split.
      * exists c. split; [exact Hc|]. now apply Qlt_bool_false.
      * intros j Hj. lia.
Qed.

(** A scan that can still reach an entry not below the target returns,
    provided it is allowed the steps up to that entry. *)
Lemma scan_reaches (cum : list Q) (t : Q) (fuel dim d : nat) (c : Q) :
  (dim <= d)%nat ->
  cum !! (d - 1)%nat = Some c -> (t <= c)%Q ->
  (d - dim < fuel)%nat ->
  exists d', scan fuel cum t dim = Return d' /\ (d' <= d)%nat.
Proof.
  intros Hle Hc Htc. revert dim Hle.
  induction fuel as [|fuel IH]; intros dim Hle Hfuel; [lia|].
  simpl.
  assert (Hlen : (d - 1 < length cum)%nat) by (eapply lookup_lt_Some; eauto).
  destruct (cum !! (dim - 1)%nat) as [c'|] eqn:Hc'.
  - destruct (Qlt_bool c' t) eqn:Hlt.
    + assert (dim <> d).
      { intros ->. rewrite Hc in Hc'. inversion Hc'; subst c'.
        apply Qlt_bool_iff in Hlt. exact (Qlt_not_le _ _ Hlt Htc). }
      destruct (IH (S dim)) as (d' & Hd' & Hle'); [lia|lia|].
      exists d'. split; [exact Hd'|lia].
    + exists dim. split; [reflexivity|lia].
  - apply lookup_ge_None in Hc'. lia.
Qed.

(** A scan over entries that are all below the target reads past the
    end. *)
Lemma scan_never (cum : list Q) (t : Q) (fuel dim : nat) :
  (forall c, c ∈ cum -> (c < t)%Q) ->
  (1 <= dim)%nat ->
  (length cum + 1 - dim < fuel)%nat ->
  scan fuel cum t dim = Raise IndexError.
Proof.
  intros Hall. revert dim.
  induction fuel as [|fuel IH]; intros dim Hdim Hfuel; [lia|].
  simpl. destruct (cum !! (dim - 1)%nat) as [c|] eqn:Hc; [|reflexivity].
  assert (Hin : c ∈ cum) by (eapply list_elem_of_lookup_2; eauto).
  apply Hall, Qlt_bool_iff in Hin. rewrite Hin.
  apply lookup_lt_Some in Hc. apply IH; lia.
Qed.

Lemma reachable_true (t : Q) (ev : list Q) :
  reachable t ev = true <->
  exists d c, (1 <= d)%nat /\ cumsum ev !! (d - 1)%nat = Some c /\ (t <= c)%Q.
Proof.
  unfold Components.reachable. rewrite existsb_exists. split.
  - intros (c & Hin & Hle). apply list_elem_of_In, list_elem_of_lookup_1 in Hin.
    destruct Hin as (i & Hi). exists (S i), c.
    split; [lia|]. split; [now replace (S i - 1)%nat with i by lia|].
    now apply Qle_bool_iff.
  - intros (d & c & _ & Hc & Hle). exists c. split.
    + eapply list_elem_of_In, list_elem_of_lookup_2; eauto.
    + now apply Qle_bool_iff.
Qed.

Lemma reachable_false (t : Q) (ev : list Q) :
  reachable t ev = false -> forall c, c ∈ cumsum ev -> (c < t)%Q.
Proof.
  unfold Components.reachable. intros H c Hin.
  apply Qlt_bool_iff. unfold Qlt_bool.
  destruct (Qle_bool t c) eqn:E; [|reflexivity].
  assert (existsb (fun c => Qle_bool t c) (cumsum ev) = true).
  { apply existsb_exists. exists c. split; [now apply list_elem_of_In|exact E]. }
  congruence.
Qed.

(** The scan of the body: once some prefix reaches the target, the loop
    stops at the first such prefix, whatever number of steps beyond the
    length of the sequence it is allowed. *)
Lemma body_first_reach (t : Q) (ev : list Q) (d0 : nat) (c0 : Q) :
  (1 <= d0)%nat -> cumsum ev !! (d0 - 1)%nat = Some c0 -> (t <= c0)%Q ->
  exists d,
    (forall fuel, (length ev < fuel)%nat -> scan fuel (cumsum ev) t 1 = Return d) /\
    (1 <= d <= d0)%nat /\ (d <= length ev)%nat /\
    cumsum ev !! (d - 1)%nat = Some (partial_sum ev d) /\
    (t <= partial_sum ev d)%Q /\
    (forall j, (1 <= j < d)%nat -> (partial_sum ev j < t)%Q).
Proof.
  intros Hd0 Hc0 Hle.
  assert (Hlen : (d0 - 1 < length ev)%nat).
  { rewrite <- length_cumsum. eapply lookup_lt_Some; eauto. }
  destruct (scan_reaches (cumsum ev) t (S (length ev)) 1 d0 c0)
    as (d & Hscan & Hdd0); [lia|exact Hc0|exact Hle|lia|].
  pose proof (scan_return _ _ _ _ _ Hscan) as (H1 & (c & Hc & Htc) & Hbelow).
  assert (Hpart : forall j, (1 <= j <= d0)%nat ->
                            cumsum ev !! (j - 1)%nat = Some (partial_sum ev j)).
  { intros j Hj. rewrite lookup_cumsum by lia. do 2 f_equal. lia. }
  exists d. split; [|split; [lia|split; [lia|split; [apply Hpart; lia|split]]]].
  - intros fuel Hfuel.
    destruct (scan_reaches (cumsum ev) t fuel 1 d c)
      as (d' & Hscan' & Hd'); [lia|exact Hc|exact Htc|lia|].
    rewrite Hscan'. f_equal.
    pose proof (scan_return _ _ _ _ _ Hscan') as (H1' & (c' & Hc' & Htc') & _).
    destruct (decide (d' = d)) as [|Hne]; [assumption|].
    destruct (Hbelow d') as (c'' & Hc'' & Hlt); [lia|].
    rewrite Hc' in Hc''. inversion Hc''; subst c''.
    exfalso. exact (Qlt_not_le _ _ Hlt Htc').
  - rewrite Hpart in Hc by lia. inversion Hc; subst c. exact Htc.
  - intros j Hj. destruct (Hbelow j) as (c' & Hc' & Hlt); [lia|].
    rewrite Hpart in Hc' by lia. inversion Hc'; subst c'. exact Hlt.
Qed.

Lemma var_in_range_iff (t : Q) :
  Errors.var_in_range t = true <-> (0 < t)%Q /\ (t <= 1)%Q.
Proof.
  unfold Errors.var_in_range.
  now rewrite andb_true_iff, Qlt_bool_iff, Qle_bool_iff.
Qed.

(** C1.  For a target in (0,1] that the total sum reaches, [get_components]
    returns the least 1-based count [d] whose cumulative sum is at least
    the target: the sum over the first [d] entries reaches the target, the
    sum over every shorter non-empty prefix is strictly below it, and [d]
    is at least 1. *)
Theorem get_components_minimal (t : Q) (ev : list Q) :
  (0 < t)%Q -> (t <= 1)%Q ->
  (t <= partial_sum ev (length ev))%Q ->
  exists d,
    get_components t ev = Return d /\
    (1 <= d <= length ev)%nat /\
    (t <= partial_sum ev d)%Q /\
    (forall j, (1 <= j < d)%nat -> (partial_sum ev j < t)%Q) /\
    (forall j, (1 <= j <= length ev)%nat -> (t <= partial_sum ev j)%Q ->
               (d <= j)%nat).
Proof.
  intros Hpos Hle1 Htot.
  assert (Hne : (1 <= length ev)%nat).
  { destruct ev as [|x xs]; simpl; [|lia].
    unfold Components.partial_sum in Htot. simpl in Htot.
    exfalso. exact (Qlt_not_le _ _ Hpos Htot). }
  destruct (body_first_reach t ev (length ev) (partial_sum ev (length ev)))
    as (d & Hscan & Hd & Hdl & _ & Hreach & Hbelow).
  - exact Hne.
  - rewrite lookup_cumsum by lia. do 2 f_equal. lia.
  - exact Htot.
  - exists d. split; [|split; [lia|split; [exact Hreach|split; [exact Hbelow|]]]].
    + unfold Components.get_components, Errors.check_var_in_range.
      rewrite (proj2 (var_in_range_iff t)) by (split; assumption).
      unfold Components.get_components_body. apply Hscan.
      rewrite length_cumsum. lia.
    + intros j Hj Htj. destruct (decide (d <= j)%nat) as [|Hn]; [assumption|].
      exfalso. apply (Qlt_not_le _ _ (Hbelow j ltac:(lia)) Htj).
Qed.

(** C10.  For any target and any non-empty sequence whose total sum is at
    least the target, the scan loop terminates: every run allowed more
    steps than the sequence is long returns the same count, so does the
    body of [get_components], and that count lies between 1 and the
    length of the sequence. *)
Theorem get_components_terminates (t : Q) (ev : list Q) :
  ev <> [] ->
  (t <= partial_sum ev (length ev))%Q ->
  exists d,
    (forall fuel, (length ev < fuel)%nat -> scan fuel (cumsum ev) t 1 = Return d) /\
    get_components_body t ev = Return d /\
    (1 <= d <= length ev)%nat.
Proof.
  intros Hne Htot.
  assert (Hlen : (1 <= length ev)%nat) by (destruct ev; simpl; [congruence|lia]).
  destruct (body_first_reach t ev (length ev) (partial_sum ev (length ev)))
    as (d & Hscan & Hd & Hdl & _).
  - exact Hlen.
  - rewrite lookup_cumsum by lia. do 2 f_equal. lia.
  - exact Htot.
  - exists d. split; [exact Hscan|]. split; [|lia].
    unfold Components.get_components_body. apply Hscan.
    rewrite length_cumsum. lia.
Qed.

(** The loop never runs out of the steps the body allows it: it returns or
    it raises. *)
Lemma get_components_body_total (t : Q) (ev : list Q) :
  get_components_body t ev <> OutOfFuel.
Proof.
  unfold Components.get_components_body.
  destruct (reachable t ev) eqn:Hr.
  - apply reachable_true in Hr. destruct Hr as (d0 & c0 & H1 & Hc & Hle).
    destruct (body_first_reach t ev d0 c0 H1 Hc Hle) as (d & Hscan & _).
    rewrite Hscan; [discriminate|]. rewrite length_cumsum. lia.
  - rewrite scan_never; [discriminate| |lia|lia].
    now apply reachable_false.
Qed.

(** C3.  For a fixed sequence and targets [t1 <= t2] in (0,1], the larger
    of which some cumulative sum reaches, [get_components] returns a count
    for each and the count for [t2] is at least the count for [t1]. *)
Theorem get_components_monotone (t1 t2 : Q) (ev : list Q) :
  (0 < t1)%Q -> (t1 <= t2)%Q -> (t2 <= 1)%Q ->
  reachable t2 ev = true ->
  exists d1 d2,
    get_components t1 ev = Return d1 /\
    get_components t2 ev = Return d2 /\
    (d1 <= d2)%nat.
Proof.
  intros Hpos H12 Hle1 Hr.
  apply reachable_true in Hr. destruct Hr as (d0 & c0 & H1 & Hc & Hle).
  destruct (body_first_reach t2 ev d0 c0 H1 Hc Hle)
    as (d2 & Hscan2 & Hd2 & Hdl2 & Hc2 & Hreach2 & _).
  destruct (body_first_reach t1 ev d2 (partial_sum ev d2))
    as (d1 & Hscan1 & Hd1 & _); [lia|exact Hc2|eapply Qle_trans; eauto|].
  exists d1, d2.
  unfold Components.get_components, Errors.check_var_in_range.
  rewrite (proj2 (var_in_range_iff t1)), (proj2 (var_in_range_iff t2)).
  - unfold Components.get_components_body.
    rewrite Hscan1, Hscan2 by (rewrite length_cumsum; lia).
    repeat split; lia.
  - split; [|exact Hle1]. eapply Qlt_le_trans; eauto.
  - split; [exact Hpos|]. eapply Qle_trans; eauto.
Qed.

(** C2, as the code has it.  When no cumulative sum reaches the target,
    [get_components] fails with the [IndexError] of the read past the end
    of the cumulative sums if the target lies in (0,1], and with
    [InvalidRangeError] otherwise. *)
Theorem get_components_unreachable (t : Q) (ev : list Q) :
  reachable t ev = false ->
  get_components t ev =
  Raise (if Errors.var_in_range t then IndexError else InvalidRangeError).
Proof.
  intros Hr. unfold Components.get_components, Errors.check_var_in_range.
  destruct (Errors.var_in_range t); [|reflexivity].
  unfold Components.get_components_body.
  apply scan_never; [now apply reachable_false|lia|lia].
Qed.

(** C6.  For a target outside (0,1] the validator fails with
    [InvalidRangeError] whatever function it wraps and whatever the other
    arguments are, so the wrapped function is not entered; in particular
    [get_components] fails so on every sequence. *)
Theorem get_components_invalid_range (t : Q) (ev : list Q) :
  ~ ((0 < t)%Q /\ (t <= 1)%Q) ->
  (forall (A B : Type) (function : Q -> A -> result B) (args : A),
     Errors.check_var_in_range function t args = Raise InvalidRangeError) /\
  get_components t ev = Raise InvalidRangeError.
Proof.
  intros Hout.
  assert (Hr : Errors.var_in_range t = false).
  { destruct (Errors.var_in_range t) eqn:E; [|reflexivity].
    apply var_in_range_iff in E. contradiction. }
  split.
  - intros A B function args. unfold Errors.check_var_in_range. now rewrite Hr.
  - unfold Components.get_components, Errors.check_var_in_range. now rewrite Hr.
Qed.

End SelectorFacts.

(** *** The selector on concrete sequences *)

Example get_components_ev3 :
  Components.get_components Qplus (7 # 10) ev3 = Return 2%nat.
Proof. reflexivity. Qed.

Example get_components_first_suffices :
  Components.get_components Qplus (1 # 4) ev3 = Return 1%nat.
Proof. reflexivity. Qed.

Lemma get_components_minimal_witness :
  exists d,
    Components.get_components Qplus (7 # 10) ev3 = Return d /\
    (1 <= d <= length ev3)%nat /\
    (7 # 10 <= Components.partial_sum Qplus ev3 d)%Q /\
    (forall j, (1 <= j < d)%nat ->
               (Components.partial_sum Qplus ev3 j < 7 # 10)%Q) /\
    (forall j, (1 <= j <= length ev3)%nat ->
               (7 # 10 <= Components.partial_sum Qplus ev3 j)%Q -> (d <= j)%nat).
Proof.
  apply (get_components_minimal Qplus (7 # 10) ev3).
  - reflexivity.
  - vm_compute. discriminate.
  - vm_compute. discriminate.
Defined.

Lemma get_components_terminates_witness :
  exists d,
    (forall fuel, (length ev3 < fuel)%nat ->
       Components.scan fuel (Components.cumsum Qplus ev3) (7 # 10) 1 = Return d) /\
    Components.get_components_body Qplus (7 # 10) ev3 = Return d /\
    (1 <= d <= length ev3)%nat.
Proof.
  apply (get_components_terminates Qplus (7 # 10) ev3).
  - discriminate.
  - vm_compute. discriminate.
Defined.

Lemma get_components_monotone_witness :
  exists d1 d2,
    Components.get_components Qplus (1 # 4) ev3 = Return d1 /\
    Components.get_components Qplus (7 # 10) ev3 = Return d2 /\
    (d1 <= d2)%nat.
Proof.
  apply (get_components_monotone Qplus (1 # 4) (7 # 10) ev3).
  - reflexivity.
  - vm_compute. discriminate.
  - vm_compute. discriminate.
  - reflexivity.
Defined.

(** C2 as stated fails: the sums of [[1/4]] never reach [1/2], and the call
    raises [IndexError], not [InsufficientVarianceError]. *)
Lemma get_components_unreachable_counterexample :
  Components.reachable Qplus (1 # 2) [(1 # 4)%Q] = false /\
  Components.get_components Qplus (1 # 2) [(1 # 4)%Q] = Raise IndexError /\
  Components.get_components Qplus (1 # 2) [(1 # 4)%Q]
  <> Raise InsufficientVarianceError.
Proof.
  split; [reflexivity|]. split; [reflexivity|]. discriminate.
Qed.

Lemma get_components_unreachable_witness :
  Components.get_components Qplus (1 # 2) [(1 # 4)%Q] = Raise IndexError.
Proof.
  apply (get_components_unreachable Qplus (1 # 2) [(1 # 4)%Q]).
  reflexivity.
Defined.

Lemma get_components_invalid_range_witness :
  (forall (A B : Type) (function : Q -> A -> result B) (args : A),
     Errors.check_var_in_range function (3 # 2) args = Raise InvalidRangeError) /\
  Components.get_components Qplus (3 # 2) ev3 = Raise InvalidRangeError.
Proof.
  apply (get_components_invalid_range Qplus (3 # 2) ev3).
  intros [_ H]. vm_compute in H. apply H. reflexivity.
Defined.


(** ** The region averages *)

Section RegionFacts.

Import Regions.

Lemma unravel_in_bounds (s : nat * nat * nat) (k : nat) :
  (k < size s)%nat -> in_bounds s (unravel s k) = true.
Proof.
  destruct s as [[a b] c]. unfold size, in_bounds, unravel. intros Hk.
  assert (Hb : b <> 0%nat) by (intros ->; lia).
  assert (Hc : c <> 0%nat) by (intros ->; lia).
  rewrite !andb_true_iff, !Nat.ltb_lt. repeat split.
  - apply Nat.Div0.div_lt_upper_bound. lia.
  - now apply Nat.mod_upper_bound.
  - now apply Nat.mod_upper_bound.
Qed.

Lemma ravel_unravel (s : nat * nat * nat) (k : nat) :
  ravel s (unravel s k) = k.
Proof.
  destruct s as [[a b] c]. unfold ravel, unravel.
  rewrite (Nat.mul_comm b c), <- Nat.Div0.div_div.
  pose proof (Nat.div_mod_eq (k / c) b) as H1.
  pose proof (Nat.div_mod_eq k c) as H2.
  rewrite (Nat.mul_comm (k / c / b) b), <- H1. lia.
Qed.

Lemma positions_lt (p : Q -> bool) (l : list Q) :
  Forall (fun k => (k < length l)%nat) (positions p l).
Proof.
  apply Forall_forall. intros k Hk. apply list_elem_of_In in Hk.
  unfold positions in Hk. apply filter_In in Hk. destruct Hk as [Hk _].
  apply in_seq in Hk. lia.
Qed.

(** The positions listed are exactly those whose entry satisfies the
    predicate. *)
Lemma elem_of_positions (p : Q -> bool) (l : list Q) (k : nat) :
  k ∈ positions p l <-> exists v, l !! k = Some v /\ p v = true.
Proof.
  rewrite list_elem_of_In. unfold positions. rewrite filter_In, in_seq. split.
  - intros [_ H]. destruct (l !! k) as [v|]; [eauto|discriminate].
  - intros (v & Hv & Hp). rewrite Hv. split; [|exact Hp].
    apply lookup_lt_Some in Hv. lia.
Qed.

(** On a grid of the shape the indices were computed for, indexing by the
    voxels of a list of positions reads the entries at these positions. *)
Lemma getitem_unravel (m : volume) (ks : list nat) :
  well_formed m ->
  Forall (fun k => (k < size (shape m))%nat) ks ->
  getitem m (map (unravel (shape m)) ks)
  = Return (omap (fun k => voxels m !! k) ks).
Proof.
  intros Hwf. induction 1 as [|k ks Hk _ IH]; simpl; [reflexivity|].
  rewrite unravel_in_bounds, ravel_unravel by exact Hk.
  destruct (voxels m !! k) as [v|] eqn:Hv.
  - rewrite IH. reflexivity.
  - apply lookup_ge_None in Hv. unfold well_formed in Hwf. lia.
Qed.

Variable atlas_data : volume.
Hypothesis atlas_well_formed : well_formed atlas_data.

Lemma getitem_region (m : volume) (i : nat) :
  well_formed m -> shape m = shape atlas_data ->
  getitem m (np_where_eq atlas_data i)
  = Return (region_values atlas_data m i).
Proof.
  intros Hwf Hs. unfold np_where_eq, region_values. rewrite <- Hs.
  apply getitem_unravel; [exact Hwf|].
  rewrite Hs, <- atlas_well_formed. apply positions_lt.
Qed.

(** The loop over the labels: every label of the range gets its mean, the
    other entries of [data] are left as they were. *)
Lemma region_loop_spec (m : volume) (range : list nat) (data : list (npfloat Q)) :
  well_formed m -> shape m = shape atlas_data ->
  NoDup range ->
  Forall (fun i => (1 <= i <= length data)%nat) range ->
  exists data',
    region_loop atlas_data m range data = Return data' /\
    length data' = length data /\
    (forall i, i ∈ range ->
       data' !! (i - 1)%nat = Some (np_mean (region_values atlas_data m i))) /\
    (forall k, (forall i, i ∈ range -> (i - 1)%nat <> k) -> data' !! k = data !! k).
Proof.
  intros Hwf Hs. revert data.
  induction range as [|i range IH]; intros data Hnd Hall; simpl.
  - exists data. split; [reflexivity|]. split; [reflexivity|]. split.
    + intros i Hi. inversion Hi.
    + reflexivity.
  - apply NoDup_cons in Hnd. destruct Hnd as [Hni Hnd].
    apply Forall_cons in Hall. destruct Hall as [Hi Hall].
    rewrite getitem_region by assumption. simpl.
    unfold setitem. rewrite (proj2 (Nat.ltb_lt _ _)) by lia. simpl.
    set (v := np_mean (region_values atlas_data m i)).
    destruct (IH (<[(i - 1)%nat := v]> data)) as (data' & Hrun & Hlen & Hin & Hout).
    + exact Hnd.
    + rewrite length_insert. exact Hall.
    + exists data'. split; [exact Hrun|]. rewrite length_insert in Hlen.
      split; [exact Hlen|]. split.
      * intros j Hj. apply elem_of_cons in Hj. destruct Hj as [->|Hj].
        -- rewrite Hout.
           ++ apply list_lookup_insert_eq. lia.
           ++ intros j Hj Heq. rewrite Forall_forall in Hall.
              pose proof (Hall j Hj). assert (j = i) by lia. subst j.
              contradiction.
        -- now apply Hin.
      * intros k Hk. rewrite Hout.
        -- apply list_lookup_insert_ne. apply Hk. left.
        -- intros j Hj. apply Hk. now right.
Qed.


(** C5.  For a scan whose grid differs from the atlas grid the validator
    fails with [ShapeMismatchError] whatever function it wraps, so the
    body is not entered and no region mean is computed; in particular
    [extract_average] fails so. *)
Theorem extract_average_shape_mismatch (imaging_matrix : volume) :
  shape imaging_matrix <> shape atlas_data ->
  (forall (B : Type) (function : volume -> result B),
     Errors.check_correct_shape shape (shape atlas_data) function imaging_matrix
     = Raise ShapeMismatchError) /\
  extract_average atlas_data imaging_matrix = Raise ShapeMismatchError.
Proof.
  intros Hs. split.
  - intros B function. unfold Errors.check_correct_shape.
    now rewrite decide_False by exact Hs.
  - unfold extract_average, Errors.check_correct_shape.
    now rewrite decide_False by exact Hs.
Qed.

End RegionFacts.

(** *** The extractor on a small grid *)

Example extract_average_scan4 :
  Regions.extract_average atlas4 scan4
  = Return (Finite (30 # 2) :: Finite (30 # 1) :: replicate 39 NaN).
Proof. reflexivity. Qed.


Lemma extract_average_shape_mismatch_witness :
  (forall (B : Type) (function : Regions.volume -> result B),
     Errors.check_correct_shape Regions.shape (Regions.shape atlas4) function scan6
     = Raise ShapeMismatchError) /\
  Regions.extract_average atlas4 scan6 = Raise ShapeMismatchError.
Proof.
  apply (extract_average_shape_mismatch atlas4 scan6). discriminate.
Defined.

(** ** The gene-expression table *)

Section ExpressionFacts.

Import Expression.

Local Open Scope R_scope.

Lemma length_load_gene_expression (expression_data : table R) :
  length (load_gene_expression expression_data)
  = Nat.min 41 (length expression_data).
Proof.
  unfold load_gene_expression, zscore, iloc.
  now rewrite !length_map, length_take.
Qed.



Lemma mean_cons (a : R) (l : list R) :
  mean (a :: l) = Finite (Rsum (a :: l) / INR (length (a :: l))).
Proof. reflexivity. Qed.



Lemma Rsum_sq_nonneg (mu : R) (x : list R) :
  0 <= Rsum (map (fun v => (v - mu) * (v - mu)) x).
Proof.
  induction x as [|a x IH]; [simpl; lra|].
  change (0 <= (a - mu) * (a - mu) + Rsum (map (fun v => (v - mu) * (v - mu)) x)).
  pose proof (Rle_0_sqr (a - mu)) as Hsq. unfold Rsqr in Hsq. lra.
Qed.


Lemma standardize_finite (mu s v : R) :
  s <> 0 -> standardize (Finite mu) (Finite s) v = Finite ((v - mu) / s).
Proof.
  intros Hs. unfold standardize. destruct (Req_dec_T s 0); [contradiction|reflexivity].
Qed.


(** Column [j] of the z-scored table is the column standardised with its
    own mean and deviation. *)
Lemma out_column_zscore (a : table R) (j : nat) :
  Forall (fun row => (j < length row)%nat) a ->
  out_column j (zscore a)
  = map (standardize (mean (column j a)) (std (column j a))) (column j a).
Proof.
  intros Hrows. unfold out_column, zscore, column. rewrite !map_map.
  apply map_ext_in. intros row Hin.
  rewrite Forall_forall in Hrows.
  apply list_elem_of_In, Hrows, lookup_lt_is_Some_2 in Hin.
  destruct Hin as [v Hv].
  rewrite (nth_lookup_Some row j 0 v Hv).
  apply nth_lookup_Some. rewrite list_lookup_imap, Hv. reflexivity.
Qed.

(** Gene column [j] of the slice is column [j + 2] of the file over the
    rows read. *)
Lemma column_iloc (expression_data : table R) (j : nat) :
  column j (iloc expression_data) = take 41 (column (j + 2) expression_data).
Proof.
  unfold column, iloc. rewrite map_map, firstn_map.
  apply map_ext. intros row. rewrite nth_skipn. f_equal. lia.
Qed.

Lemma iloc_rows (expression_data : table R) (j : nat) :
  rectangular expression_data ->
  (j + 2 < ncols expression_data)%nat ->
  Forall (fun row => (j < length row)%nat) (iloc expression_data).
Proof.
  unfold rectangular, iloc. intros Hrect Hj.
  apply Forall_forall. intros row Hin.
  apply list_elem_of_In, in_map_iff in Hin. destruct Hin as (row' & <- & Hin).
  rewrite length_drop.
  assert (Hin' : row' ∈ expression_data).
  { apply (subseteq_take 41). now apply list_elem_of_In. }
  rewrite Forall_forall in Hrect. rewrite (Hrect _ Hin'). lia.
Qed.



End ExpressionFacts.

(** *** The loader on small tables *)



(** ** The sample count of the two inputs *)

(** C8.  For a scan with the shape of the atlas and a table of at least 41
    rows, [extract_average] returns 41 values and [load_gene_expression]
    returns 41 rows: the two inputs of the fit have the same sample count
    41. *)
Theorem sample_count (atlas_data imaging_matrix : Regions.volume)
        (expression_data : Expression.table R) :
  Regions.well_formed atlas_data ->
  Regions.well_formed imaging_matrix ->
  Regions.shape imaging_matrix = Regions.shape atlas_data ->
  (41 <= length expression_data)%nat ->
  exists X,
    Regions.extract_average atlas_data imaging_matrix = Return X /\
    length X = 41%nat /\
    length (Expression.load_gene_expression expression_data) = 41%nat.
Proof.
  intros Hatlas Hwf Hs Hrows.
  destruct (region_loop_spec atlas_data Hatlas imaging_matrix
              (seq 1 Regions.n_regions)
              (replicate Regions.n_regions (Finite 0%Q)) Hwf Hs)
    as (data & Hrun & Hlen & _).
  - apply NoDup_ListNoDup, seq_NoDup.
  - apply Forall_forall. intros i Hi. apply list_elem_of_In, in_seq in Hi.
    rewrite length_replicate. lia.
  - exists data. split; [|split].
    + unfold Regions.extract_average, Errors.check_correct_shape.
      rewrite decide_True by exact Hs. exact Hrun.
    + now rewrite Hlen, length_replicate.
    + rewrite length_load_gene_expression. lia.
Qed.

Lemma sample_count_witness :
  exists X,
    Regions.extract_average atlas4 scan4 = Return X /\
    length X = 41%nat /\
    length (Expression.load_gene_expression constant_table) = 41%nat.
Proof.
  apply (sample_count atlas4 scan4 constant_table).
  - reflexivity.
  - reflexivity.
  - reflexivity.
  - simpl. lia.
Defined.

(** ** The permutation p-values *)

Section PermutationFacts.

Import Permutations.

Local Open Scope Q_scope.

Lemma count_null_ge_true_le (true_ev : Q) (null : list Q) :
  (count_null_ge_true true_ev null <= length null)%nat.
Proof. unfold count_null_ge_true. apply filter_length_le. Qed.

Lemma inject_nat_pos (n : nat) : 0 < inject_Z (Z.of_nat (n + 1)).
Proof.
  change 0 with (inject_Z 0). rewrite <- Zlt_Qlt. lia.
Qed.

(** The p-value is a positive fraction between [1/(n_perm+1)] and 1. *)
Lemma p_value_bounds (true_ev : Q) (null : list Q) :
  1 / inject_Z (Z.of_nat (length null + 1)) <= p_value true_ev null /\
  p_value true_ev null <= 1 /\
  0 < p_value true_ev null.
Proof.
  unfold p_value.
  pose proof (count_null_ge_true_le true_ev null) as Hc.
  pose proof (inject_nat_pos (length null)) as HN.
  set (N := inject_Z (Z.of_nat (length null + 1))) in *.
  set (C := inject_Z (Z.of_nat (count_null_ge_true true_ev null + 1))).
  assert (H1C : 1 <= C).
  { unfold C. change 1 with (inject_Z 1). rewrite <- Zle_Qle. lia. }
  assert (HCN : C <= N).
  { unfold C, N. rewrite <- Zle_Qle. lia. }
  assert (HN0 : ~ N == 0) by (intros E; rewrite E in HN; discriminate).
  split; [|split].
  - apply Qle_shift_div_l; [exact HN|].
    rewrite Qmult_comm, Qmult_div_r by exact HN0. exact H1C.
  - apply Qle_shift_div_r; [exact HN|]. now rewrite Qmult_1_l.
  - apply Qlt_shift_div_l; [exact HN|]. rewrite Qmult_0_l.
    eapply Qlt_le_trans; [|exact H1C]. reflexivity.
Qed.

Variable pls_fit : matrix -> matrix -> nat -> option (list Q).
Variable rng : Type.
Variable seed : option nat -> rng.
Variable draw_permutation : rng -> nat -> list nat * rng.
Variable retry_budget : nat.

Local Abbreviation null_fits := (null_fits pls_fit rng draw_permutation retry_budget).
Local Abbreviation permutation_test_pls :=
  (permutation_test_pls pls_fit rng seed draw_permutation retry_budget).

(** The accumulation records one null fit per iteration. *)
Lemma length_null_fits (n_perm : nat) (X Y : matrix) (d : nat) (g : rng)
      (evs : list (list Q)) :
  null_fits n_perm X Y d g = Return evs -> length evs = n_perm.
Proof.
  revert g evs. induction n_perm as [|n IH]; intros g evs H.
  - simpl in H. now inversion H.
  - cbn [Permutations.null_fits] in H.
    destruct (null_fit pls_fit rng draw_permutation (S retry_budget) X Y d g)
      as [[ev g']| |]; try discriminate.
    cbn [bind] in H.
    destruct (null_fits n X Y d g') as [evs'| |] eqn:E; try discriminate.
    cbn [bind] in H. injection H as <-. simpl. f_equal. eapply IH; eauto.
Qed.

(** With a fit that never fails and at least one iteration the engine
    returns. *)
Lemma permutation_test_returns (X Y : matrix) (d n_perm : nat)
      (rng_seed : option nat) :
  (forall X' Y' d', pls_fit X' Y' d' <> None) ->
  (1 <= n_perm)%nat ->
  exists res, permutation_test_pls X Y d n_perm rng_seed = Return res.
Proof.
  intros Hfit Hn.
  assert (Hone : forall a g, exists ev g',
             null_fit pls_fit rng draw_permutation (S a) X Y d g = Return (ev, g')).
  { intros a g. cbn [Permutations.null_fit].
    destruct (draw_permutation g (length Y)) as [perm g'].
    destruct (pls_fit X (permute_rows Y perm) d) as [ev|] eqn:E.
    - eauto.
    - exfalso. exact (Hfit _ _ _ E). }
  assert (Hall : forall n g, exists evs, null_fits n X Y d g = Return evs).
  { induction n as [|n IH]; intros g.
    - exists []. reflexivity.
    - cbn [Permutations.null_fits].
      destruct (Hone retry_budget g) as (ev & g' & ->). cbn [bind].
      destruct (IH g') as (evs & ->). cbn [bind]. eauto. }
  unfold Permutations.permutation_test_pls.
  rewrite (proj2 (Nat.ltb_ge _ _) Hn).
  destruct (pls_fit X Y d) as [true_ev|] eqn:E; [|exfalso; exact (Hfit _ _ _ E)].
  destruct (Hall n_perm (seed rng_seed)) as (evs & ->). cbn [bind]. eauto.
Qed.

(** C7.  Whenever the engine returns, [n_perm] is at least 1 and, for each
    of the [d] components, the p-value is
    [(count_null_ge_true + 1) / (n_perm + 1)], the count being taken over
    the [n_perm] null values of that component against the baseline value;
    it lies in [[1/(n_perm+1), 1]] and is not zero. *)
Theorem permutation_p_values (X Y : matrix) (d n_perm : nat)
        (rng_seed : option nat) (res : PermutationResult) :
  permutation_test_pls X Y d n_perm rng_seed = Return res ->
  (1 <= n_perm)%nat /\
  length (p_values res) = d /\
  forall k, (k < d)%nat ->
    exists true_ev null p,
      pls_fit X Y d = Some true_ev /\
      null_distribution res !! k = Some null /\
      length null = n_perm /\
      p_values res !! k = Some p /\
      p = inject_Z (Z.of_nat (count_null_ge_true (List.nth k true_ev 0) null + 1))
          / inject_Z (Z.of_nat (n_perm + 1)) /\
      1 / inject_Z (Z.of_nat (n_perm + 1)) <= p /\ p <= 1 /\ 0 < p.
Proof.
  unfold Permutations.permutation_test_pls. intros H.
  destruct (n_perm <? 1)%nat eqn:Hn; [discriminate|].
  apply Nat.ltb_ge in Hn.
  destruct (pls_fit X Y d) as [true_ev|]; [|discriminate].
  destruct (null_fits n_perm X Y d (seed rng_seed)) as [evs| |] eqn:Hfits;
    try discriminate.
  apply length_null_fits in Hfits.
  simpl in H. inversion H; subst res; clear H. simpl.
  split; [exact Hn|]. split; [now rewrite length_imap, length_map, length_seq|].
  intros k Hk.
  set (null := map (fun ev => List.nth k ev 0) evs).
  assert (Hnull : map (fun k => map (fun ev => List.nth k ev 0) evs) (seq 0 d) !! k
                  = Some null).
  { change (map ?f ?l) with (f <$> l) at 1.
    rewrite list_lookup_fmap, lookup_seq_lt by exact Hk. reflexivity. }
  assert (Hlen : length null = n_perm) by (unfold null; now rewrite length_map).
  exists true_ev, null, (p_value (List.nth k true_ev 0) null).
  split; [reflexivity|]. split; [exact Hnull|]. split; [exact Hlen|].
  split; [now rewrite list_lookup_imap, Hnull|].
  split; [unfold p_value; now rewrite Hlen|].
  rewrite <- Hlen. apply p_value_bounds.
Qed.

End PermutationFacts.

(** *** The engine on a toy fit *)

Example permutation_test_toy :
  Permutations.permutation_test_pls toy_fit nat toy_seed toy_draw 3
    toy_X toy_Y 1 2 None
  = Return toy_result.
Proof. reflexivity. Qed.

Example permutation_test_no_iterations :
  Permutations.permutation_test_pls toy_fit nat toy_seed toy_draw 3
    toy_X toy_Y 1 0 None
  = Raise InvalidParameterError.
Proof. reflexivity. Qed.

Lemma permutation_p_values_witness :
  (1 <= 2)%nat /\
  length (Permutations.p_values toy_result) = 1%nat /\
  forall k, (k < 1)%nat ->
    exists true_ev null p,
      toy_fit toy_X toy_Y 1 = Some true_ev /\
      Permutations.null_distribution toy_result !! k = Some null /\
      length null = 2%nat /\
      Permutations.p_values toy_result !! k = Some p /\
      p = (inject_Z (Z.of_nat
             (Permutations.count_null_ge_true (List.nth k true_ev 0) null + 1))
           / inject_Z (Z.of_nat (2 + 1)))%Q /\
      (1 / inject_Z (Z.of_nat (2 + 1)) <= p)%Q /\ (p <= 1)%Q /\ (0 < p)%Q.
Proof.
  apply (permutation_p_values toy_fit nat toy_seed toy_draw 3
           toy_X toy_Y 1 2 None toy_result).
  reflexivity.
Defined.

(** * Further properties of the code *)

(** ** The scan of [get_components] on every input *)

Section SelectorOutcome.

Variable fadd : Q -> Q -> Q.

Local Abbreviation cumsum := (Components.cumsum fadd).
Local Abbreviation partial_sum := (Components.partial_sum fadd).
Local Abbreviation reachable := (Components.reachable fadd).
Local Abbreviation get_components_body := (Components.get_components_body fadd).

Lemma body_reachable (t : Q) (ev : list Q) :
  reachable t ev = true ->
  exists d, get_components_body t ev = Return d /\ (1 <= d <= length ev)%nat.
Proof.
  intros Hr. apply reachable_true in Hr.
  destruct Hr as (d0 & c0 & H1 & Hc & Hle).
  destruct (body_first_reach fadd t ev d0 c0 H1 Hc Hle)
    as (d & Hscan & Hd & Hdl & _).
  exists d. split; [|lia].
  unfold Components.get_components_body. apply Hscan.
  rewrite length_cumsum. lia.
Qed.

Lemma body_unreachable (t : Q) (ev : list Q) :
  reachable t ev = false -> get_components_body t ev = Raise IndexError.
Proof.
  intros Hr. unfold Components.get_components_body.
  apply scan_never; [now apply reachable_false|lia|lia].
Qed.

(** The body either returns a count between 1 and the length, and then
    some cumulative sum reaches the target, or it raises [IndexError], and
    then none does; it raises nothing else and always ends. *)
Theorem get_components_body_outcome (t : Q) (ev : list Q) :
  match get_components_body t ev with
  | Return d => reachable t ev = true /\ (1 <= d <= length ev)%nat
  | Raise e => e = IndexError /\ reachable t ev = false
  | OutOfFuel => False
  end.
Proof.
  destruct (reachable t ev) eqn:Hr.
  - destruct (body_reachable t ev Hr) as (d & Hret & Hd).
    rewrite Hret. split; [reflexivity|exact Hd].
  - rewrite (body_unreachable t ev Hr). split; reflexivity.
Qed.

Lemma partial_sum_take_app (ev rest : list Q) (d j : nat) :
  (j <= d)%nat -> (d <= length ev)%nat ->
  partial_sum (take d ev ++ rest) j = partial_sum ev j.
Proof.
  intros Hj Hd. unfold Components.partial_sum.
  rewrite take_app_le by (rewrite length_take; lia).
  rewrite take_take. now replace (j `min` d)%nat with j by lia.
Qed.

(** The count depends on the first [d] entries only: whatever follows
    them, the body returns the same count. *)
Theorem get_components_body_prefix (t : Q) (ev rest : list Q) (d : nat) :
  get_components_body t ev = Return d ->
  get_components_body t (take d ev ++ rest) = Return d.
Proof.
  intros Hret. unfold Components.get_components_body in Hret.
  pose proof (scan_return _ _ _ _ _ Hret) as (H1 & (c & Hc & Htc) & Hbelow).
  assert (Hd : (d <= length ev)%nat).
  { apply lookup_lt_Some in Hc. rewrite length_cumsum in Hc. lia. }
  assert (Hlen : length (take d ev ++ rest) = (d + length rest)%nat).
  { rewrite length_app, length_take. lia. }
  assert (Hsame : forall j, (1 <= j <= d)%nat ->
            cumsum (take d ev ++ rest) !! (j - 1)%nat = cumsum ev !! (j - 1)%nat).
  { intros j Hj. rewrite !lookup_cumsum by lia.
    replace (S (j - 1)) with j by lia.
    now rewrite partial_sum_take_app by lia. }
  destruct (body_first_reach fadd t (take d ev ++ rest) d c)
    as (d' & Hscan & Hd' & _ & Hc' & Hreach & _).
  - exact H1.
  - rewrite Hsame by lia. exact Hc.
  - exact Htc.
  - unfold Components.get_components_body.
    rewrite Hscan by (rewrite length_cumsum; lia). f_equal.
    destruct (decide (d' = d)) as [|Hne]; [assumption|].
    destruct (Hbelow d') as (c'' & Hc'' & Hlt); [lia|].
    rewrite <- Hsame, Hc' in Hc'' by lia. inversion Hc''; subst c''.
    exfalso. exact (Qlt_not_le _ _ Hlt Hreach).
Qed.

(** From here on the entries are not negative and adding such an entry
    does not lower a sum, as with explained variances and with float64
    addition, which rounds monotonically. *)
Hypothesis fadd_increasing : forall a x : Q, (0 <= x)%Q -> (a <= fadd a x)%Q.

Lemma partial_sum_S (ev : list Q) (k : nat) (x : Q) :
  (1 <= k)%nat -> ev !! k = Some x ->
  partial_sum ev (S k) = fadd (partial_sum ev k) x.
Proof.
  intros Hk Hx. unfold Components.partial_sum.
  rewrite (take_S_r ev k x Hx).
  destruct (take k ev) as [|y ys] eqn:E.
  - apply (f_equal length) in E. rewrite length_take in E.
    apply lookup_lt_Some in Hx. simpl in E. lia.
  - simpl. now rewrite fold_left_app.
Qed.

Lemma partial_sum_increasing (ev : list Q) (j k : nat) :
  Forall (fun x => (0 <= x)%Q) ev ->
  (1 <= j <= k)%nat -> (k <= length ev)%nat ->
  (partial_sum ev j <= partial_sum ev k)%Q.
Proof.
  intros Hpos [Hj Hjk] Hk. induction Hjk as [|k Hjk IH].
  - apply Qle_refl.
  - destruct (lookup_lt_is_Some_2 ev k) as [x Hx]; [lia|].
    rewrite (partial_sum_S ev k x) by (lia || exact Hx).
    eapply Qle_trans; [apply IH; lia|].
    apply fadd_increasing. rewrite Forall_forall in Hpos.
    apply Hpos. eapply list_elem_of_lookup_2; eauto.
Qed.

(** With entries that are not negative the body raises [IndexError]
    exactly when the sequence is empty or its total sum is below the
    target. *)
Theorem get_components_body_index_error (t : Q) (ev : list Q) :
  Forall (fun x => (0 <= x)%Q) ev ->
  (get_components_body t ev = Raise IndexError <->
   ev = [] \/ (partial_sum ev (length ev) < t)%Q).
Proof.
  intros Hpos. split.
  - intros Hraise.
    destruct ev as [|x xs]; [now left|right].
    apply Qnot_le_lt. intros Hle.
    destruct (body_reachable t (x :: xs)) as (d & Hret & _); [|congruence].
    apply reachable_true.
    exists (length (x :: xs)), (partial_sum (x :: xs) (length (x :: xs))).
    split; [simpl; lia|]. split; [|exact Hle].
    rewrite lookup_cumsum by (simpl; lia). do 2 f_equal. simpl. lia.
  - intros Hcase. apply body_unreachable.
    destruct (reachable t ev) eqn:Hr; [exfalso|reflexivity].
    apply reachable_true in Hr. destruct Hr as (d0 & c0 & H1 & Hc & Hle).
    assert (Hd0 : (d0 <= length ev)%nat).
    { apply lookup_lt_Some in Hc. rewrite length_cumsum in Hc. lia. }
    destruct Hcase as [->|Hlt]; [simpl in Hd0; lia|].
    rewrite lookup_cumsum in Hc by lia. replace (S (d0 - 1)) with d0 in Hc by lia.
    inversion Hc; subst c0.
    apply (Qlt_not_le _ _ Hlt). eapply Qle_trans; [exact Hle|].
    apply partial_sum_increasing; [exact Hpos|lia|lia].
Qed.

(** With entries that are not negative the returned count is a
    threshold: the cumulative sum over [j] entries reaches the target
    exactly for the counts [j] from the returned one on. *)
Theorem get_components_body_threshold (t : Q) (ev : list Q) (d : nat) :
  Forall (fun x => (0 <= x)%Q) ev ->
  get_components_body t ev = Return d ->
  forall j, (1 <= j <= length ev)%nat ->
            ((t <= partial_sum ev j)%Q <-> (d <= j)%nat).
Proof.
  intros Hpos Hret j Hj.
  unfold Components.get_components_body in Hret.
  pose proof (scan_return _ _ _ _ _ Hret) as (H1 & (c & Hc & Htc) & Hbelow).
  assert (Hd : (d <= length ev)%nat).
  { apply lookup_lt_Some in Hc. rewrite length_cumsum in Hc. lia. }
  rewrite lookup_cumsum in Hc by lia. replace (S (d - 1)) with d in Hc by lia.
  inversion Hc; subst c.
  split.
  - intros Hreach. destruct (decide (d <= j)%nat) as [|Hn]; [assumption|].
    destruct (Hbelow j) as (c' & Hc' & Hlt); [lia|].
    rewrite lookup_cumsum in Hc' by lia. replace (S (j - 1)) with j in Hc' by lia.
    inversion Hc'; subst c'. exfalso. exact (Qlt_not_le _ _ Hlt Hreach).
  - intros Hdj. eapply Qle_trans; [exact Htc|].
    apply partial_sum_increasing; [exact Hpos|lia|lia].
Qed.

End SelectorOutcome.

(** *** The scan on concrete sequences *)

Lemma Qplus_increasing (a x : Q) : (0 <= x)%Q -> (a <= a + x)%Q.
Proof.
  intros Hx. rewrite <- (Qplus_0_r a) at 1. apply Qplus_le_r. exact Hx.
Qed.

Lemma ev3_not_negative : Forall (fun x => (0 <= x)%Q) ev3.
Proof. repeat constructor; discriminate. Qed.

Lemma get_components_body_prefix_witness :
  Components.get_components_body Qplus (7 # 10)
    (take 2 ev3 ++ [(9 # 10)%Q]) = Return 2%nat.
Proof.
  apply (get_components_body_prefix Qplus (7 # 10) ev3 [(9 # 10)%Q] 2).
  reflexivity.
Defined.

Lemma get_components_body_index_error_witness :
  Components.get_components_body Qplus 2 ev3 = Raise IndexError <->
  ev3 = [] \/ (Components.partial_sum Qplus ev3 (length ev3) < 2)%Q.
Proof.
  apply (get_components_body_index_error Qplus Qplus_increasing 2 ev3).
  exact ev3_not_negative.
Defined.

Lemma get_components_body_threshold_witness :
  (7 # 10 <= Components.partial_sum Qplus ev3 3)%Q <-> (2 <= 3)%nat.
Proof.
  apply (get_components_body_threshold Qplus Qplus_increasing (7 # 10) ev3 2).
  - exact ev3_not_negative.
  - reflexivity.
  - simpl. lia.
Defined.

(** ** The body of [extract_average] *)

Section RegionBody.

Import Regions.

Variable atlas_data : volume.

(** Indexing raises [IndexError] or returns; it returns only if every
    index lies inside the grid. *)
Lemma getitem_outcome (m : volume) (idx : list (nat * nat * nat)) :
  match getitem m idx with
  | Return vs => length vs = length idx /\
                 Forall (fun i => in_bounds (shape m) i = true) idx
  | Raise e => e = IndexError
  | OutOfFuel => False
  end.
Proof.
  induction idx as [|i idx IH]; simpl.
  - split; [reflexivity|constructor].
  - destruct (in_bounds (shape m) i) eqn:Hb; [|reflexivity].
    destruct (voxels m !! ravel (shape m) i) as [v|]; [|reflexivity].
    destruct (getitem m idx) as [vs|e|]; simpl; [|exact IH|exact IH].
    destruct IH as [Hlen Hall]. split; [now rewrite Hlen|].
    constructor; assumption.
Qed.

(** The loop raises [IndexError] or returns, and a returned array has the
    length of the one it started from. *)
Lemma region_loop_outcome (m : volume) (range : list nat)
      (data : list (npfloat Q)) :
  match region_loop atlas_data m range data with
  | Return data' =>
      length data' = length data /\
      Forall (fun i => Forall (fun x => in_bounds (shape m) x = true)
                              (np_where_eq atlas_data i)) range
  | Raise e => e = IndexError
  | OutOfFuel => False
  end.
Proof.
  revert data. induction range as [|i range IH]; intros data; simpl.
  - split; [reflexivity|constructor].
  - pose proof (getitem_outcome m (np_where_eq atlas_data i)) as Hg.
    destruct (getitem m (np_where_eq atlas_data i)) as [sel|e|]; simpl;
      [|exact Hg|exact Hg].
    unfold setitem. destruct (i - 1 <? length data)%nat; simpl; [|reflexivity].
    specialize (IH (<[(i - 1)%nat := np_mean sel]> data)).
    destruct (region_loop atlas_data m range _) as [data'|e|]; [|exact IH|exact IH].
    destruct IH as [Hlen Hall]. rewrite length_insert in Hlen.
    split; [exact Hlen|]. constructor; [apply Hg|exact Hall].
Qed.

(** Whatever the grid of the scan, the body returns [n_regions] values or
    raises [IndexError]. *)
Theorem extract_average_body_outcome (imaging_matrix : volume) :
  match extract_average_body atlas_data imaging_matrix with
  | Return data => length data = n_regions
  | Raise e => e = IndexError
  | OutOfFuel => False
  end.
Proof.
  unfold extract_average_body.
  pose proof (region_loop_outcome imaging_matrix (seq 1 n_regions)
                (replicate n_regions (Finite 0%Q))) as H.
  destruct (region_loop atlas_data imaging_matrix _ _) as [data|e|];
    [|exact H|exact H].
  destruct H as [H _]. now rewrite H, length_replicate.
Qed.

(** A voxel of one of the 41 regions that lies outside the grid of the
    scan makes the body raise [IndexError]. *)
Theorem extract_average_body_out_of_grid (imaging_matrix : volume) (i k : nat) :
  (1 <= i <= n_regions)%nat ->
  k ∈ positions (label_is i) (voxels atlas_data) ->
  in_bounds (shape imaging_matrix) (unravel (shape atlas_data) k) = false ->
  extract_average_body atlas_data imaging_matrix = Raise IndexError.
Proof.
  intros Hi Hk Hout. unfold extract_average_body.
  pose proof (region_loop_outcome imaging_matrix (seq 1 n_regions)
                (replicate n_regions (Finite 0%Q))) as H.
  destruct (region_loop atlas_data imaging_matrix _ _) as [data|e|];
    [|now subst e|contradiction].
  exfalso. destruct H as [_ Hall].
  rewrite Forall_forall in Hall.
  assert (Hin : i ∈ seq 1 n_regions) by (apply list_elem_of_In, in_seq; lia).
  specialize (Hall i Hin). rewrite Forall_forall in Hall.
  assert (Hx : unravel (shape atlas_data) k ∈ np_where_eq atlas_data i).
  { unfold np_where_eq. apply list_elem_of_In, in_map, list_elem_of_In, Hk. }
  rewrite (Hall _ Hx) in Hout. discriminate.
Qed.

Hypothesis atlas_well_formed : well_formed atlas_data.

Lemma body_returns (m : volume) :
  well_formed m -> shape m = shape atlas_data ->
  exists data,
    extract_average_body atlas_data m = Return data /\
    length data = n_regions /\
    (forall i, (i < n_regions)%nat ->
       data !! i = Some (np_mean (region_values atlas_data m (i + 1)))).
Proof.
  intros Hwf Hs.
  destruct (region_loop_spec atlas_data atlas_well_formed m (seq 1 n_regions)
              (replicate n_regions (Finite 0%Q)) Hwf Hs)
    as (data & Hrun & Hlen & Hin & _).
  - apply NoDup_ListNoDup, seq_NoDup.
  - apply Forall_forall. intros i Hi. apply list_elem_of_In, in_seq in Hi.
    rewrite length_replicate. lia.
  - exists data. split; [exact Hrun|]. split; [now rewrite Hlen, length_replicate|].
    intros i Hi. specialize (Hin (i + 1)%nat).
    replace (i + 1 - 1)%nat with i in Hin by lia. apply Hin.
    apply list_elem_of_In, in_seq. lia.
Qed.

Lemma region_values_ext (m1 m2 : volume) (i : nat) :
  (forall k, k ∈ positions (label_is i) (voxels atlas_data) ->
             voxels m1 !! k = voxels m2 !! k) ->
  region_values atlas_data m1 i = region_values atlas_data m2 i.
Proof.
  unfold region_values.
  induction (positions (label_is i) (voxels atlas_data)) as [|k ks IH];
    intros H; [reflexivity|].
  change (omap ?f (k :: ks))
    with (match f k with Some v => v :: omap f ks | None => omap f ks end).
  cbv beta. rewrite (H k) by left. rewrite IH; [reflexivity|].
  intros k' Hk'. apply H. now right.
Qed.

(** Only the voxels of the 41 regions count: two scans that agree on
    them have the same averages, whatever they hold elsewhere. *)
Theorem extract_average_body_labelled_only (m1 m2 : volume) :
  well_formed m1 -> well_formed m2 ->
  shape m1 = shape atlas_data -> shape m2 = shape atlas_data ->
  (forall i k, (1 <= i <= n_regions)%nat ->
               k ∈ positions (label_is i) (voxels atlas_data) ->
               voxels m1 !! k = voxels m2 !! k) ->
  extract_average_body atlas_data m1 = extract_average_body atlas_data m2.
Proof.
  intros Hwf1 Hwf2 Hs1 Hs2 Hagree.
  destruct (body_returns m1 Hwf1 Hs1) as (d1 & -> & Hl1 & He1).
  destruct (body_returns m2 Hwf2 Hs2) as (d2 & -> & Hl2 & He2).
  f_equal. apply list_eq. intros i.
  destruct (decide (i < n_regions)%nat) as [Hi|Hi].
  - rewrite He1, He2 by exact Hi. do 2 f_equal.
    apply region_values_ext. intros k Hk. apply (Hagree (i + 1)%nat); [lia|exact Hk].
  - rewrite !lookup_ge_None_2 by lia. reflexivity.
Qed.



End RegionBody.

(** *** The body on small grids *)

Lemma extract_average_body_out_of_grid_witness :
  Regions.extract_average_body atlas4 scan2 = Raise IndexError.
Proof.
  apply (extract_average_body_out_of_grid atlas4 scan2 2 2).
  - unfold Regions.n_regions. lia.
  - apply elem_of_positions. exists 2%Q. split; reflexivity.
  - reflexivity.
Defined.

Lemma extract_average_body_labelled_only_witness :
  Regions.extract_average_body atlas4 scan4
  = Regions.extract_average_body atlas4 scan4b.
Proof.
  apply (extract_average_body_labelled_only atlas4); try reflexivity.
  intros i k Hi Hk. apply elem_of_positions in Hk.
  destruct Hk as (v & Hv & Hp).
  do 3 (destruct k as [|k]; [reflexivity|]).
  destruct k as [|k]; [|discriminate].
  exfalso. inversion Hv; subst v.
  apply Qeq_bool_iff in Hp. unfold Qeq in Hp. simpl in Hp. lia.
Defined.


(** ** The table [load_gene_expression] returns *)

Section ExpressionShape.

Import Expression.

Local Open Scope R_scope.

Lemma lookup_map {A B : Type} (f : A -> B) (l : list A) (i : nat) :
  map f l !! i = f <$> (l !! i).
Proof. exact (list_lookup_fmap f l i). Qed.

(** Rows after the 41st are not read. *)
Theorem load_gene_expression_rows_beyond (expression_data extra : table R) :
  (41 <= length expression_data)%nat ->
  load_gene_expression (expression_data ++ extra)
  = load_gene_expression expression_data.
Proof.
  intros Hlen. unfold load_gene_expression, iloc.
  now rewrite take_app_le by exact Hlen.
Qed.

(** The result has a row for each of the first 41 rows of the file and
    none more, and each row has lost its two leading columns and nothing
    else. *)
Theorem load_gene_expression_shape (expression_data : table R) :
  length (load_gene_expression expression_data)
  = Nat.min 41 (length expression_data) /\
  forall i row, (i < 41)%nat -> expression_data !! i = Some row ->
    exists out, load_gene_expression expression_data !! i = Some out /\
                length out = (length row - 2)%nat.
Proof.
  split; [apply length_load_gene_expression|].
  intros i row Hi Hrow. unfold load_gene_expression, zscore, iloc, table in *.
  eexists. split.
  - rewrite !lookup_map, lookup_take_lt, Hrow by exact Hi. reflexivity.
  - now rewrite length_imap, length_drop.
Qed.

(** With fewer than two rows every entry of the result is [nan]: the
    deviation with [ddof = 1] divides by zero. *)
Theorem load_gene_expression_few_rows (expression_data : table R) :
  (length expression_data <= 1)%nat ->
  Forall (Forall (fun x => x = NaN)) (load_gene_expression expression_data).
Proof.
  intros Hlen. destruct expression_data as [|row [|row' rest]];
    [constructor| |simpl in Hlen; lia].
  unfold load_gene_expression, zscore, iloc. simpl.
  constructor; [|constructor].
  apply Forall_lookup_2. intros j x Hx.
  rewrite list_lookup_imap in Hx.
  destruct (drop 2 row !! j) as [y|]; [|discriminate].
  simpl in Hx. now inversion Hx.
Qed.

(** A gene that already has mean 0 and unit sample deviation over the
    rows read is returned as it is. *)
Theorem load_gene_expression_normalised (expression_data : table R) (j : nat) :
  rectangular expression_data ->
  (j + 2 < ncols expression_data)%nat ->
  mean (gene_column j expression_data) = Finite 0 ->
  std (gene_column j expression_data) = Finite 1 ->
  out_column j (load_gene_expression expression_data)
  = map Finite (gene_column j expression_data).
Proof.
  intros Hrect Hj Hmean Hstd. unfold load_gene_expression.
  rewrite out_column_zscore by (now apply iloc_rows).
  rewrite column_iloc. fold (gene_column j expression_data).
  rewrite Hmean, Hstd. apply map_ext. intros v.
  rewrite standardize_finite by lra. f_equal. field.
Qed.

End ExpressionShape.

(** ** Which genes come back as [nan] *)

Section ExpressionDegenerate.

Import Expression.

Local Open Scope R_scope.




End ExpressionDegenerate.

(** ** A change of unit of the expression values *)

Section ExpressionAffine.

Import Expression.

Local Open Scope R_scope.

Variables a b : R.
Hypothesis a_positive : 0 < a.

Local Abbreviation rescale := (fun x : R => a * x + b).

Lemma Rsum_rescale (l : list R) :
  Rsum (map rescale l) = a * Rsum l + INR (length l) * b.
Proof.
  induction l as [|x l IH]; [simpl; lra|].
  change (Rsum (map rescale (x :: l))) with (a * x + b + Rsum (map rescale l)).
  change (Rsum (x :: l)) with (x + Rsum l).
  change (length (x :: l)) with (S (length l)).
  rewrite IH, S_INR. lra.
Qed.

Lemma Rsum_sq_rescale (mu : R) (l : list R) :
  Rsum (map (fun v => (v - (a * mu + b)) * (v - (a * mu + b))) (map rescale l))
  = a * a * Rsum (map (fun v => (v - mu) * (v - mu)) l).
Proof.
  induction l as [|x l IH]; [simpl; lra|].
  change (Rsum (map (fun v => (v - (a * mu + b)) * (v - (a * mu + b)))
                    (map rescale (x :: l))))
    with ((a * x + b - (a * mu + b)) * (a * x + b - (a * mu + b))
          + Rsum (map (fun v => (v - (a * mu + b)) * (v - (a * mu + b)))
                      (map rescale l))).
  change (Rsum (map (fun v => (v - mu) * (v - mu)) (x :: l)))
    with ((x - mu) * (x - mu) + Rsum (map (fun v => (v - mu) * (v - mu)) l)).
  rewrite IH. ring.
Qed.

Lemma mean_rescale (l : list R) :
  mean (map rescale l)
  = match mean l with Finite mu => Finite (a * mu + b) | NaN => NaN end.
Proof.
  destruct l as [|x l]; [reflexivity|].
  pose proof (Rsum_rescale (x :: l)) as Hsum.
  pose proof (length_map rescale (x :: l)) as Hlen.
  change (map rescale (x :: l)) with (a * x + b :: map rescale l) in *.
  rewrite !mean_cons, Hsum, Hlen. f_equal. field.
  apply not_0_INR. simpl. lia.
Qed.

Lemma std_rescale (l : list R) :
  std (map rescale l)
  = match std l with Finite s => Finite (a * s) | NaN => NaN end.
Proof.
  unfold std. rewrite mean_rescale, length_map.
  destruct (mean l) as [mu|]; [|reflexivity].
  destruct (length l - 1 =? 0)%nat eqn:Hn; [reflexivity|].
  apply Nat.eqb_neq in Hn. f_equal.
  rewrite Rsum_sq_rescale.
  set (SS := Rsum (map (fun v => (v - mu) * (v - mu)) l)).
  assert (HSS : 0 <= SS) by apply Rsum_sq_nonneg.
  assert (HN : 0 < INR (length l - 1)) by (apply lt_0_INR; lia).
  replace (a * a * SS / INR (length l - 1))
    with ((a * a) * (SS / INR (length l - 1))) by (field; lra).
  rewrite sqrt_mult.
  - rewrite sqrt_square by lra. reflexivity.
  - nra.
  - apply Rmult_le_pos; [exact HSS|]. left. now apply Rinv_0_lt_compat.
Qed.

Lemma standardize_rescale (l : list R) (x : R) :
  standardize (mean (map rescale l)) (std (map rescale l)) (rescale x)
  = standardize (mean l) (std l) x.
Proof.
  rewrite mean_rescale, std_rescale.
  destruct (mean l) as [mu|], (std l) as [s|]; try reflexivity.
  unfold standardize.
  destruct (Req_dec_T (a * s) 0) as [Has|Has], (Req_dec_T s 0) as [Hs|Hs].
  - reflexivity.
  - exfalso. apply Hs. apply Rmult_integral in Has. destruct Has; [lra|assumption].
  - exfalso. apply Has. rewrite Hs. ring.
  - f_equal. field. split; [exact Hs|lra].
Qed.

Lemma column_rescale (m : table R) (j : nat) :
  Forall (fun row => (j < length row)%nat) m ->
  column j (map (map rescale) m) = map rescale (column j m).
Proof.
  intros Hrows. unfold column. rewrite !map_map.
  apply map_ext_in. intros row Hin.
  rewrite Forall_forall in Hrows. apply list_elem_of_In, Hrows in Hin.
  rewrite (nth_indep _ 0 (rescale 0)) by (now rewrite length_map).
  exact (map_nth rescale row 0 j).
Qed.

Lemma zscore_rescale (m : table R) :
  rectangular m -> zscore (map (map rescale) m) = zscore m.
Proof.
  intros Hrect. unfold zscore. rewrite map_map.
  apply map_ext_in. intros row Hin.
  change (map rescale row) with (rescale <$> row).
  rewrite imap_fmap. apply imap_ext. intros j x Hjx. simpl.
  rewrite column_rescale; [apply standardize_rescale|].
  unfold rectangular in Hrect. rewrite Forall_forall in Hrect.
  apply Forall_forall. intros row' Hin'.
  rewrite (Hrect row' Hin'), <- (Hrect row) by (now apply list_elem_of_In).
  eapply lookup_lt_Some; eauto.
Qed.

Lemma iloc_rescale (expression_data : table R) :
  iloc (map (map rescale) expression_data)
  = map (map rescale) (iloc expression_data).
Proof.
  unfold iloc. rewrite firstn_map, !map_map.
  apply map_ext. intros row. apply skipn_map.
Qed.

Lemma rectangular_iloc (expression_data : table R) :
  rectangular expression_data -> rectangular (iloc expression_data).
Proof.
  unfold rectangular, iloc. intros Hrect.
  destruct expression_data as [|row0 rest]; [constructor|].
  rewrite Forall_forall in Hrect. apply Forall_forall. intros row Hin.
  apply list_elem_of_In, in_map_iff in Hin. destruct Hin as (row' & <- & Hin).
  simpl. rewrite !length_drop. f_equal.
  apply Hrect. apply (subseteq_take 41). now apply list_elem_of_In.
Qed.

(** The result does not depend on the unit of the expression values:
    rescaling every entry of the file by [x -> a * x + b] with [a]
    positive leaves it unchanged. *)
Theorem load_gene_expression_rescale (expression_data : table R) :
  rectangular expression_data ->
  load_gene_expression (map (map rescale) expression_data)
  = load_gene_expression expression_data.
Proof.
  intros Hrect. unfold load_gene_expression.
  rewrite iloc_rescale. apply zscore_rescale. now apply rectangular_iloc.
Qed.

End ExpressionAffine.

(** *** The loader on small tables, continued *)

Lemma load_gene_expression_rows_beyond_witness :
  Expression.load_gene_expression (constant_table ++ [[0; 0; 5]%R])
  = Expression.load_gene_expression constant_table.
Proof.
  apply (load_gene_expression_rows_beyond constant_table [[0; 0; 5]%R]).
  simpl. lia.
Defined.

Lemma load_gene_expression_few_rows_witness :
  Forall (Forall (fun x => x = NaN)) (Expression.load_gene_expression one_row_table).
Proof.
  apply (load_gene_expression_few_rows one_row_table). simpl. lia.
Defined.

Lemma load_gene_expression_normalised_witness :
  Expression.out_column 0 (Expression.load_gene_expression table_normalised)
  = map Finite (Expression.gene_column 0 table_normalised).
Proof.
  apply (load_gene_expression_normalised table_normalised 0).
  - repeat constructor.
  - simpl. lia.
  - unfold Expression.gene_column, Expression.mean. simpl. f_equal. lra.
  - unfold Expression.std, Expression.gene_column, Expression.mean. simpl.
    f_equal.
    match goal with |- sqrt ?e = _ => replace e with 1%R by field end.
    apply sqrt_1.
Defined.


Lemma load_gene_expression_rescale_witness :
  Expression.load_gene_expression (map (map (fun x => (2 * x + 1)%R)) table3)
  = Expression.load_gene_expression table3.
Proof.
  apply (load_gene_expression_rescale 2 1).
  - lra.
  - repeat constructor.
Defined.
